(** * Nonrigid coherent point drift: one maximisation step

    A shallow embedding of [cpd::Nonrigid] (include/cpd/nonrigid.hpp) and the
    properties of its per-iteration solver.

    The C++ code computes on [double]s held in Eigen's dynamically sized
    [Matrix] and [Vector].  The embedding works in exact arithmetic: scalars
    live in an arbitrary real (ordered) field [R], a [Matrix] with [m] rows
    and [n] columns is a ['M[R]_(m, n)], a [Vector] is a column ['cV[R]_n].
    Rounding is therefore outside the model; a quotient whose divisor is zero,
    which IEEE arithmetic turns into an infinity or a NaN, is recorded as
    [None]. *)

From HB Require Import structures.
From mathcomp Require Import boot order algebra.

Set Implicit Arguments.
Unset Strict Implicit.
Unset Printing Implicit Defensive.

Import Order.TTheory GRing.Theory Num.Theory.
Local Open Scope ring_scope.

(** [enum class NonrigidPolicy { PRECISION = 0, PERFORMANCE }] *)
Inductive NonrigidPolicy : Set :=
  | PRECISION
  | PERFORMANCE.

(** ** Eigen's array operations, entry by entry *)
Section EigenArrays.

Variable R : realFieldType.

(** [A.array().pow(2)] *)
Definition array_pow2 m n (A : 'M[R]_(m, n)) : 'M[R]_(m, n) :=
  map_mx (fun x => x ^+ 2) A.

(** [A.array() * B.array()], the entrywise product *)
Definition array_mul m n (A B : 'M[R]_(m, n)) : 'M[R]_(m, n) :=
  \matrix_(i, j) (A i j * B i j).

(** [v.replicate(1, cols)]: the column [v] repeated [cols] times *)
Definition replicate_cols n (v : 'cV[R]_n) (cols : nat) : 'M[R]_(n, cols) :=
  \matrix_(i, j) v i 0.

(** [A.sum()] over all the entries *)
Definition array_sum m n (A : 'M[R]_(m, n)) : R :=
  \sum_i \sum_j A i j.

(** [v.sum()] of a vector *)
Definition vector_sum n (v : 'cV[R]_n) : R :=
  \sum_i v i 0.

(** [v.asDiagonal()] *)
Definition asDiagonal n (v : 'cV[R]_n) : 'M[R]_n :=
  diag_mx v^T.

(** [x / y] on doubles, kept only when it is finite. *)
Definition quotient (x y : R) : option R :=
  if y == 0 then None else Some (x / y).

End EigenArrays.

(** ** The data the transform works on *)
Section Data.

Variable R : realFieldType.

(** Modelled from the spec: the struct [Probabilities] is declared in a header
    that is not part of the sources at hand; these are the four fields the
    specification lists and [nonrigid.hpp] reads or writes.  [M] is the number
    of fixed points, [N] the number of moving points, [D] the dimension. *)
Record Probabilities (M N D : nat) : Type := MkProbabilities {
  p1 : 'cV[R]_N;
  pt1 : 'cV[R]_M;
  px : 'M[R]_(N, D);
  l : R
}.

(** Modelled from the spec: [struct NonrigidResult : public Result {}] adds
    nothing to [Result], which is declared in a header that is not part of the
    sources at hand; these are the two fields [compute_one] assigns.  [sigma2]
    is [None] when the double is not finite. *)
Record NonrigidResult (N D : nat) : Type := MkNonrigidResult {
  points : 'M[R]_(N, D);
  sigma2 : option R
}.

(** The private members of [class Nonrigid].  The dimensions of the two
    matrices are those of the moving set handed to [init]. *)
Record Nonrigid (N D : nat) : Type := MkNonrigid {
  m_g : 'M[R]_N;
  m_w : 'M[R]_(N, D);
  m_lambda : R;
  m_beta : R;
  m_linked : bool
}.

End Data.

Arguments MkProbabilities {R M N D}.
Arguments MkNonrigidResult {R N D}.
Arguments MkNonrigid {R N D}.

(** [DEFAULT_BETA] and [DEFAULT_LAMBDA] *)
Definition DEFAULT_BETA {R : realFieldType} : R := 3.
Definition DEFAULT_LAMBDA {R : realFieldType} : R := 3.

(** ** The member functions *)
Section Transform.

Variable R : realFieldType.

(** [cpd::affinity], the Gaussian kernel builder, is defined in another
    translation unit; [init] only calls it. *)
Variable affinity :
  forall n m d : nat, 'M[R]_(n, d) -> 'M[R]_(m, d) -> R -> 'M[R]_(n, m).

(** [DEFAULT_LINKED] comes from [cpd/transform.hpp]. *)
Variable DEFAULT_LINKED : bool.

(** Eigen's two decompositions followed by [.solve(b)]:
    [A.colPivHouseholderQr().solve(b)] and [A.householderQr().solve(b)]. *)
Variable colPivHouseholderQr_solve :
  forall n d : nat, 'M[R]_n -> 'M[R]_(n, d) -> 'M[R]_(n, d).
Variable householderQr_solve :
  forall n d : nat, 'M[R]_n -> 'M[R]_(n, d) -> 'M[R]_(n, d).

(** The constructor [Nonrigid()]: default parameters, empty matrices. *)
Definition Nonrigid_new : Nonrigid R 0 0 :=
  MkNonrigid 0 0 DEFAULT_LAMBDA DEFAULT_BETA DEFAULT_LINKED.

(** [void init(const Matrix& fixed, const Matrix& moving)]: the members are
    resized to the moving set, whatever their size was. *)
Definition init N0 D0 M Df N D (self : Nonrigid R N0 D0)
    (fixed : 'M[R]_(M, Df)) (moving : 'M[R]_(N, D)) : Nonrigid R N D :=
  MkNonrigid (affinity moving moving (m_beta self)) 0
             (m_lambda self) (m_beta self) (m_linked self).

(** [void modify_probabilities(Probabilities& probabilities) const]: the
    statistics after the call. *)
Definition modify_probabilities N D M' N' D' (self : Nonrigid R N D)
    (probabilities : Probabilities R M' N' D') : Probabilities R M' N' D' :=
  MkProbabilities (p1 probabilities) (pt1 probabilities) (px probabilities)
    (l probabilities
     + m_lambda self / 2 * \tr ((m_w self)^T *m m_g self *m m_w self)).

(** The chainable setters [beta(double)], [lambda(double)] and
    [linked(bool)]; the last one shares its name with the getter. *)
Definition beta N D (self : Nonrigid R N D) (beta : R) : Nonrigid R N D :=
  MkNonrigid (m_g self) (m_w self) (m_lambda self) beta (m_linked self).

Definition lambda N D (self : Nonrigid R N D) (lambda : R) : Nonrigid R N D :=
  MkNonrigid (m_g self) (m_w self) lambda (m_beta self) (m_linked self).

Definition set_linked N D (self : Nonrigid R N D) (linked : bool) :
    Nonrigid R N D :=
  MkNonrigid (m_g self) (m_w self) (m_lambda self) (m_beta self) linked.

(** [virtual bool linked() const] *)
Definition linked N D (self : Nonrigid R N D) : bool := m_linked self.

(** The matrix handed to the decomposition,
    [dp * m_g + m_lambda * sigma2 * Matrix::Identity(rows, rows)]. *)
Definition system_matrix N D (self : Nonrigid R N D) (p : 'cV[R]_N)
    (sigma2 : R) : 'M[R]_N :=
  asDiagonal p *m m_g self + (m_lambda self * sigma2) *: 1%:M.

(** The right-hand side, [probabilities.px - dp * moving]. *)
Definition system_rhs M N D (moving : 'M[R]_(N, D))
    (probabilities : Probabilities R M N D) : 'M[R]_(N, D) :=
  px probabilities - asDiagonal (p1 probabilities) *m moving.

(** [if constexpr (P == NonrigidPolicy::PRECISION) ... else ...] *)
Definition policy_solve (P : NonrigidPolicy) n d :
    'M[R]_n -> 'M[R]_(n, d) -> 'M[R]_(n, d) :=
  match P with
  | PRECISION => @colPivHouseholderQr_solve n d
  | PERFORMANCE => @householderQr_solve n d
  end.

(** The local [Matrix w] of [compute_one]. *)
Definition solved_w (P : NonrigidPolicy) M N D (self : Nonrigid R N D)
    (moving : 'M[R]_(N, D)) (probabilities : Probabilities R M N D)
    (sigma2 : R) : 'M[R]_(N, D) :=
  policy_solve P (system_matrix self (p1 probabilities) sigma2)
                 (system_rhs moving probabilities).

(** The numerator of the quotient that [std::abs] is applied to. *)
Definition residual M N D (fixed : 'M[R]_(M, D)) (pts : 'M[R]_(N, D))
    (probabilities : Probabilities R M N D) : R :=
  let cols := D in
  array_sum (array_mul (array_pow2 fixed)
                       (replicate_cols (pt1 probabilities) cols))
  + array_sum (array_mul (array_pow2 pts)
                         (replicate_cols (p1 probabilities) cols))
  - 2 * \tr ((px probabilities)^T *m pts).

(** [NonrigidResult compute_one(fixed, moving, probabilities, sigma2) const].
    The types carry what Eigen asserts on the sizes: [fixed] and [moving] have
    the same number of columns, [m_g] is square of the size of [moving]. *)
Definition compute_one (P : NonrigidPolicy) M N D (self : Nonrigid R N D)
    (fixed : 'M[R]_(M, D)) (moving : 'M[R]_(N, D))
    (probabilities : Probabilities R M N D) (sigma2 : R) :
    NonrigidResult R N D :=
  let cols := D in
  let w := solved_w P self moving probabilities sigma2 in
  let result_points := moving + m_g self *m w in
  let np := vector_sum (p1 probabilities) in
  MkNonrigidResult result_points
    (omap Num.norm
       (quotient (residual fixed result_points probabilities)
                 (np * cols%:R))).

End Transform.

(** ** The object across calls

    [init] and the setters assign members; [modify_probabilities],
    [compute_one] and [linked()] are declared [const].  A call is run on the
    object and leaves the object behind. *)
Section Calls.

Variable R : realFieldType.
Variable colPivHouseholderQr_solve :
  forall n d : nat, 'M[R]_n -> 'M[R]_(n, d) -> 'M[R]_(n, d).
Variable householderQr_solve :
  forall n d : nat, 'M[R]_n -> 'M[R]_(n, d) -> 'M[R]_(n, d).

(** [compute_one] as a call: its result and the object after it.  The
    function is [const] and [m_w] is not [mutable]: [w] is a local. *)
Definition compute_one_call (P : NonrigidPolicy) M N D (self : Nonrigid R N D)
    (fixed : 'M[R]_(M, D)) (moving : 'M[R]_(N, D))
    (probabilities : Probabilities R M N D) (sigma2 : R) :
    NonrigidResult R N D * Nonrigid R N D :=
  (compute_one colPivHouseholderQr_solve householderQr_solve
     P self fixed moving probabilities sigma2,
   self).

(** [modify_probabilities] as a call: the statistics it was given a reference
    to, and the object after it. *)
Definition modify_probabilities_call N D M' N' D' (self : Nonrigid R N D)
    (probabilities : Probabilities R M' N' D') :
    Probabilities R M' N' D' * Nonrigid R N D :=
  (modify_probabilities self probabilities, self).

(** The calls a scheduler makes on a transform once [init] has run. *)
Inductive call (N D : nat) : Type :=
  | CallModifyProbabilities M' N' D' of Probabilities R M' N' D'
  | CallBeta of R
  | CallLambda of R
  | CallSetLinked of bool
  | CallLinked
  | CallComputeOne (P : NonrigidPolicy) M of
      'M[R]_(M, D) & 'M[R]_(N, D) & Probabilities R M N D & R.

(** The object after one call. *)
Definition after_call N D (self : Nonrigid R N D) (c : call N D) :
    Nonrigid R N D :=
  match c with
  | CallModifyProbabilities _ _ _ pr => (modify_probabilities_call self pr).2
  | CallBeta b => beta self b
  | CallLambda lam => lambda self lam
  | CallSetLinked b => set_linked self b
  | CallLinked => self
  | CallComputeOne P _ fixed moving pr s2 =>
      (compute_one_call P self fixed moving pr s2).2
  end.

(** The object after a sequence of calls. *)
Definition after_calls N D (self : Nonrigid R N D) (cs : seq (call N D)) :
    Nonrigid R N D :=
  foldl (@after_call N D) self cs.

(** The values handed to [lambda], in the order of the calls. *)
Definition lambda_calls N D (cs : seq (call N D)) : seq R :=
  pmap (fun c => if c is CallLambda lam then Some lam else None) cs.

End Calls.

(** ** Notions used in the statements *)
Section Notions.

Variable R : realFieldType.

(** The contract of a QR solve in exact arithmetic: on an invertible matrix
    it returns a solution of [A x = b].  Nothing is promised on a singular
    one. *)
Definition solves_invertible
    (solve : forall n d : nat, 'M[R]_n -> 'M[R]_(n, d) -> 'M[R]_(n, d)) :
    Prop :=
  forall n d (A : 'M[R]_n) (b : 'M[R]_(n, d)),
    A \in unitmx -> A *m solve n d A b = b.

(** The solve that inverts: the reference the two decompositions agree with on
    invertible systems. *)
Definition exact_solve n d (A : 'M[R]_n) (b : 'M[R]_(n, d)) : 'M[R]_(n, d) :=
  invmx A *m b.

(** The variance as the specification writes it: the absolute value of the
    residual, divided by [np * D]. *)
Definition sigma2_spec M N D (fixed : 'M[R]_(M, D)) (pts : 'M[R]_(N, D))
    (probabilities : Probabilities R M N D) : option R :=
  quotient
    `| \sum_i \sum_j fixed i j ^+ 2 * pt1 probabilities i 0
       + \sum_i \sum_j pts i j ^+ 2 * p1 probabilities i 0
       - 2 * \tr ((px probabilities)^T *m pts) |
    ((\sum_i p1 probabilities i 0) * D%:R).

Definition symmetric n (A : 'M[R]_n) : Prop := A^T = A.

(** [x^T A x] *)
Definition quadratic_form n (A : 'M[R]_n) (x : 'cV[R]_n) : R :=
  \tr (x^T *m A *m x).

Definition positive_semidefinite n (A : 'M[R]_n) : Prop :=
  forall x : 'cV[R]_n, 0 <= quadratic_form A x.

Definition positive_definite n (A : 'M[R]_n) : Prop :=
  forall x : 'cV[R]_n, x != 0 -> 0 < quadratic_form A x.

Definition nonnegative n (v : 'cV[R]_n) : Prop := forall i, 0 <= v i 0.

End Notions.

(** ** Concrete inputs over the rationals *)
Section Examples.

(** The kernel used in the examples: 1 where two points coincide and 0
    elsewhere.  On a set whose points all coincide it is the Gaussian kernel
    itself, whatever the bandwidth. *)
Definition coincidence_kernel n m d (x : 'M[rat]_(n, d)) (y : 'M[rat]_(m, d))
    (beta : rat) : 'M[rat]_(n, m) :=
  \matrix_(i, j) (row i x == row j y)%:R.

(** The transform after [init] on one moving point in dimension 1, default
    parameters: the kernel of a point with itself is [exp 0 = 1]. *)
Definition one_point_transform : Nonrigid rat 1 1 :=
  MkNonrigid 1%:M 0 DEFAULT_LAMBDA DEFAULT_BETA true.

(** The same for one moving point in dimension 0. *)
Definition one_point_transform_dim0 : Nonrigid rat 1 0 :=
  MkNonrigid 1%:M 0 DEFAULT_LAMBDA DEFAULT_BETA true.

(** The transform after [init] on two coincident moving points: every entry
    of the kernel is [exp 0 = 1]. *)
Definition two_point_transform : Nonrigid rat 2 1 :=
  MkNonrigid (const_mx 1) 0 DEFAULT_LAMBDA DEFAULT_BETA true.

(** One-to-one statistics of a single pair of points, the fixed one at 1. *)
Definition unit_statistics : Probabilities rat 1 1 1 :=
  MkProbabilities (const_mx 1) (const_mx 1) (const_mx 1) 0.

(** Statistics without mass on the moving point. *)
Definition massless_statistics : Probabilities rat 1 1 1 :=
  MkProbabilities 0 (const_mx 1) (const_mx 1) 0.

(** Statistics with a negative mass on the moving point. *)
Definition negative_statistics : Probabilities rat 1 1 1 :=
  MkProbabilities (const_mx (-1)) (const_mx 1) 0 0.

(** One-to-one statistics in dimension 0. *)
Definition unit_statistics_dim0 : Probabilities rat 1 1 0 :=
  MkProbabilities (const_mx 1) (const_mx 1) 0 0.

(** Mass 16 on the first of two moving points, none on the second. *)
Definition uneven_p1 : 'cV[rat]_2 := \col_i (if i == ord0 then 16 else 0).

(** The direction (1, -2). *)
Definition skew_direction : 'cV[rat]_2 :=
  \col_i (if i == ord0 then 1 else - 2).

(** [unit_statistics] after every moving point has been moved by 1. *)
Definition shifted_statistics : Probabilities rat 1 1 1 :=
  MkProbabilities (p1 unit_statistics) (pt1 unit_statistics)
    (px unit_statistics + asDiagonal (p1 unit_statistics) *m const_mx 1) 0.

(** [unit_statistics] with the fixed point twice as far. *)
Definition doubled_statistics : Probabilities rat 1 1 1 :=
  MkProbabilities (p1 unit_statistics) (pt1 unit_statistics)
    (2 *: px unit_statistics) 0.

(** One-to-one statistics of a moving point at 1 that is at its target. *)
Definition settled_statistics : Probabilities rat 1 1 1 :=
  MkProbabilities (const_mx 1) (const_mx 1)
    (asDiagonal (const_mx 1) *m const_mx 1) 0.

(** The statistics of the correspondence matrix [[1]] and a fixed point at
    1. *)
Definition paired_statistics : Probabilities rat 1 1 1 :=
  MkProbabilities (const_mx 1) (const_mx 1)
    ((const_mx 1 : 'M[rat]_1) *m (const_mx 1 : 'M[rat]_1)) 0.

(** The transform after [init] on one moving point of the plane. *)
Definition one_point_transform_dim2 : Nonrigid rat 1 2 :=
  MkNonrigid 1%:M 0 DEFAULT_LAMBDA DEFAULT_BETA true.

(** A point of the plane with first coordinate 0 and second coordinate
    [y]. *)
Definition on_second_axis (y : rat) : 'M[rat]_(1, 2) :=
  \matrix_(i, j) (if j == ord0 then 0 else y).

(** One-to-one statistics of a point of the plane with target [(0, y)]. *)
Definition plane_statistics (y : rat) : Probabilities rat 1 1 2 :=
  MkProbabilities (const_mx 1) (const_mx 1) (on_second_axis y) 0.

(** Mass on the first of two moving points only, no target. *)
Definition uneven_statistics : Probabilities rat 1 2 1 :=
  MkProbabilities uneven_p1 0 0 0.

End Examples.

(** * Facts

    ** The array operations and the solve *)
Section ArrayFacts.

Variable R : realFieldType.

Lemma quotient_some (x y : R) : y != 0 -> quotient x y = Some (x / y).
Proof. by rewrite /quotient => /negPf ->. Qed.

Lemma quotient_none (x : R) : quotient x 0 = None.
Proof. by rewrite /quotient eqxx. Qed.

Lemma exact_solveP : solves_invertible (@exact_solve R).
Proof. by move=> n d A b Au; rewrite /exact_solve mulKVmx. Qed.

Lemma asDiagonalE n (v : 'cV[R]_n) (i j : 'I_n) :
  asDiagonal v i j = (v i 0) *+ (i == j).
Proof. by rewrite /asDiagonal !mxE. Qed.

Lemma asDiagonal_mul n d (v : 'cV[R]_n) (A : 'M[R]_(n, d)) i j :
  (asDiagonal v *m A) i j = v i 0 * A i j.
Proof. by rewrite /asDiagonal mul_diag_mx !mxE. Qed.

Lemma mul_asDiagonal n d (A : 'M[R]_(d, n)) (v : 'cV[R]_n) i j :
  (A *m asDiagonal v) i j = A i j * v j 0.
Proof. by rewrite /asDiagonal mul_mx_diag !mxE. Qed.

Lemma asDiagonal_const n (c : R) : asDiagonal (const_mx c) = c%:M :> 'M_n.
Proof. by apply/matrixP=> i j; rewrite asDiagonalE !mxE. Qed.

End ArrayFacts.

(** ** Sums, traces and quotients *)
Section NumericFacts.

Variable R : realFieldType.

Lemma mxtrace_tr_mul m n (A B : 'M[R]_(m, n)) :
  \tr (A^T *m B) = \sum_i \sum_j A i j * B i j.
Proof.
rewrite /mxtrace exchange_big /=; apply: eq_bigr => j _.
by rewrite mxE; apply: eq_bigr => i _; rewrite mxE.
Qed.

Lemma residualE M N D (fixed : 'M[R]_(M, D)) (pts : 'M[R]_(N, D))
    (pr : Probabilities R M N D) :
  residual fixed pts pr
  = \sum_i \sum_j fixed i j ^+ 2 * pt1 pr i 0
    + \sum_i \sum_j pts i j ^+ 2 * p1 pr i 0
    - 2 * \tr ((px pr)^T *m pts).
Proof.
rewrite /residual /array_sum; congr (_ + _ - _).
  by apply: eq_bigr => i _; apply: eq_bigr => j _; rewrite !mxE.
by apply: eq_bigr => i _; apply: eq_bigr => j _; rewrite !mxE.
Qed.

Lemma vector_sum_const n (c : R) : vector_sum (const_mx c : 'cV_n) = c *+ n.
Proof.
rewrite /vector_sum; under eq_bigr do rewrite mxE.
by rewrite sumr_const card_ord.
Qed.

Lemma norm_quotient (x y : R) :
  omap Num.norm (quotient x y) = quotient `|x| `|y|.
Proof.
rewrite /quotient normr_eq0; case: (y == 0) => //=.
by rewrite normf_div.
Qed.

End NumericFacts.

(** ** The matrix of the linear system *)
Section SystemMatrixFacts.

Variable R : realFieldType.

Lemma dot_colE n (x y : 'cV[R]_n) : \tr (x^T *m y) = \sum_i x i 0 * y i 0.
Proof.
by rewrite mxtrace_tr_mul; apply: eq_bigr => i _; rewrite big_ord1.
Qed.

Lemma quadratic_formE n (A : 'M[R]_n) (x : 'cV[R]_n) :
  quadratic_form A x = \sum_i x i 0 * (A *m x) i 0.
Proof. by rewrite /quadratic_form -mulmxA dot_colE. Qed.

Lemma quadratic_formD n (A B : 'M[R]_n) (x : 'cV[R]_n) :
  quadratic_form (A + B) x = quadratic_form A x + quadratic_form B x.
Proof. by rewrite /quadratic_form mulmxDr mulmxDl mxtraceD. Qed.

Lemma quadratic_formZ n (a : R) (A : 'M[R]_n) (x : 'cV[R]_n) :
  quadratic_form (a *: A) x = a * quadratic_form A x.
Proof. by rewrite /quadratic_form -scalemxAr -scalemxAl mxtraceZ. Qed.

Lemma quadratic_form1 n (x : 'cV[R]_n) :
  quadratic_form 1%:M x = \sum_i x i 0 ^+ 2.
Proof.
by rewrite quadratic_formE mul1mx; apply: eq_bigr => i _; rewrite expr2.
Qed.

Lemma sum_sqr_gt0 n (x : 'cV[R]_n) : x != 0 -> 0 < \sum_i x i 0 ^+ 2.
Proof.
move=> x_neq0.
have sum_ge0 : 0 <= \sum_i x i 0 ^+ 2.
  by apply: sumr_ge0 => i _; apply: sqr_ge0.
rewrite lt_neqAle sum_ge0 andbT.
apply: contra x_neq0 => /eqP/esym sum0.
apply/eqP/matrixP => i j; rewrite ord1 mxE.
have /(_ i isT)/eqP := @psumr_eq0P _ _ _ _ (fun k _ => sqr_ge0 (x k 0)) sum0.
by rewrite sqrf_eq0 => /eqP.
Qed.

(** A square matrix with a trivial kernel on columns is invertible. *)
Lemma unitmx_col_kernel n (A : 'M[R]_n) :
  (forall x : 'cV[R]_n, A *m x = 0 -> x = 0) -> A \in unitmx.
Proof.
move=> kerA; rewrite -unitmx_tr -row_free_unit -kermx_eq0.
apply/rowV0P => v /sub_kermxP vA.
apply: trmx_inj; rewrite trmx0; apply: kerA.
by rewrite -[A]trmxK -trmx_mul vA trmx0.
Qed.

Lemma system_matrix_mul N D (self : Nonrigid R N D) (p : 'cV[R]_N) (s2 : R)
    (x : 'cV[R]_N) i :
  (system_matrix self p s2 *m x) i 0
  = p i 0 * (m_g self *m x) i 0 + m_lambda self * s2 * x i 0.
Proof.
rewrite /system_matrix mulmxDl -mulmxA -scalemxAl mul1mx mxE.
by rewrite asDiagonal_mul [in X in _ + X]mxE.
Qed.

Lemma system_matrixE N D (self : Nonrigid R N D) (p : 'cV[R]_N) (s2 : R) i j :
  system_matrix self p s2 i j
  = p i 0 * m_g self i j + (m_lambda self * s2) *+ (i == j).
Proof.
rewrite /system_matrix mxE asDiagonal_mul; congr (_ + _).
by rewrite !mxE mulr_natr.
Qed.

Lemma system_matrix_unit N D (self : Nonrigid R N D) (p : 'cV[R]_N)
    (s2 : R) :
  positive_semidefinite (m_g self) -> nonnegative p ->
  0 < m_lambda self * s2 -> system_matrix self p s2 \in unitmx.
Proof.
move=> G_psd p_ge0 mu_gt0; apply: unitmx_col_kernel => x Ax0.
pose y := m_g self *m x.
have rowE i : p i 0 * y i 0 + m_lambda self * s2 * x i 0 = 0.
  by rewrite -system_matrix_mul Ax0 mxE.
have sumE : \sum_i p i 0 * y i 0 ^+ 2
            = - (m_lambda self * s2 * quadratic_form (m_g self) x).
  rewrite quadratic_formE -/y mulr_sumr -sumrN.
  apply: eq_bigr => i _; apply/eqP; rewrite -subr_eq0 opprK; apply/eqP.
  by rewrite -[RHS](mulr0 (y i 0)) -(rowE i); ring.
have term_ge0 i : true -> 0 <= p i 0 * y i 0 ^+ 2.
  by move=> _; rewrite mulr_ge0 ?sqr_ge0.
have sum0 : \sum_i p i 0 * y i 0 ^+ 2 = 0.
  apply/eqP; rewrite eq_le sumr_ge0 // andbT sumE oppr_le0.
  by rewrite mulr_ge0 // ltW.
apply/matrixP => i j; rewrite ord1 mxE.
have /(_ i isT)/eqP := @psumr_eq0P _ _ _ _ term_ge0 sum0.
rewrite mulf_eq0 sqrf_eq0 -mulf_eq0 => /eqP py0.
have /eqP := rowE i; rewrite py0 add0r mulf_eq0 (gt_eqF mu_gt0) /=.
by move/eqP.
Qed.

Lemma system_matrix_sym_iff N D (self : Nonrigid R N D) (p : 'cV[R]_N)
    (s2 : R) :
  symmetric (m_g self) ->
  symmetric (system_matrix self p s2)
  <-> asDiagonal p *m m_g self = m_g self *m asDiagonal p.
Proof.
move=> G_sym; rewrite /symmetric /system_matrix.
rewrite linearD /= trmx_mul G_sym /asDiagonal tr_diag_mx.
rewrite linearZ /= tr_scalar_mx.
by split=> [/addIr-> | ->].
Qed.

Lemma system_matrix_sym_uniform N D (self : Nonrigid R N D) (c s2 : R) :
  symmetric (m_g self) -> symmetric (system_matrix self (const_mx c) s2).
Proof.
move=> G_sym; apply/system_matrix_sym_iff => //.
by rewrite asDiagonal_const mul_scalar_mx mul_mx_scalar.
Qed.

(** A non-negative diagonal matrix that commutes with a positive
    semi-definite [G] has a positive semi-definite product with it.  The
    entries of [G] between two indices with different weights vanish, so the
    quadratic form splits over the classes of indices of equal weight; each
    index [k] stands for its class, and counts for one [c k]-th of it. *)
Lemma commuting_diag_quadratic_form_ge0 n (G : 'M[R]_n) (p x : 'cV[R]_n) :
  asDiagonal p *m G = G *m asDiagonal p ->
  nonnegative p -> positive_semidefinite G ->
  0 <= quadratic_form (asDiagonal p *m G) x.
Proof.
move=> comm p_ge0 G_psd.
pose c (k : 'I_n) := #|[pred i | p i 0 == p k 0]|.
pose xk (k : 'I_n) : 'cV[R]_n := \col_i (x i 0 *+ (p i 0 == p k 0)).
have c_gt0 k : (0 < c k)%N.
  by apply/card_gt0P; exists k; rewrite inE.
have c_eq i k : p k 0 == p i 0 -> c k = c i.
  by move=> /eqP pk; apply: eq_card => j; rewrite !inE pk.
have G0 i j : p i 0 != p j 0 -> G i j = 0.
  move=> pij; have /matrixP/(_ i j) := comm.
  rewrite asDiagonal_mul mul_asDiagonal mulrC => /eqP.
  by rewrite -subr_eq0 -mulrBr mulf_eq0 subr_eq0 (negPf pij) orbF => /eqP.
suff -> : quadratic_form (asDiagonal p *m G) x
          = \sum_k (p k 0 / (c k)%:R) * quadratic_form G (xk k).
  apply: sumr_ge0 => k _; apply: mulr_ge0; last exact: G_psd.
  by apply: divr_ge0; rewrite ?ler0n.
rewrite quadratic_formE.
under eq_bigr do rewrite -mulmxA asDiagonal_mul mxE mulr_sumr mulr_sumr.
under [RHS]eq_bigr do rewrite quadratic_formE mulr_sumr.
rewrite [RHS]exchange_big /=; apply: eq_bigr => i _.
under [RHS]eq_bigr do rewrite !mxE mulr_sumr mulr_sumr.
rewrite [RHS]exchange_big /=; apply: eq_bigr => j _.
under eq_bigr do rewrite !mxE.
have [pij | pij] := boolP (p i 0 == p j 0); last first.
  rewrite (G0 _ _ pij) mul0r !mulr0 big1 // => k _.
  have [/eqP pik | _] := boolP (p i 0 == p k 0); last first.
    by rewrite mulr0n mul0r mulr0.
  have -> : (p j 0 == p k 0) = false by rewrite -pik eq_sym (negPf pij).
  by rewrite mulr0n !mulr0.
have term0 k : p k 0 != p i 0 ->
    p k 0 / (c k)%:R
    * (x i 0 *+ (p i 0 == p k 0) * (G i j * (x j 0 *+ (p j 0 == p k 0))))
    = 0.
  by move=> /negPf pki; rewrite [p i 0 == _]eq_sym pki mulr0n mul0r mulr0.
rewrite (bigID (fun k => p k 0 == p i 0)) /= [X in _ + X]big1 // addr0.
have termE k : p k 0 == p i 0 ->
    p k 0 / (c k)%:R
    * (x i 0 *+ (p i 0 == p k 0) * (G i j * (x j 0 *+ (p j 0 == p k 0))))
    = p i 0 / (c i)%:R * (x i 0 * (G i j * x j 0)).
  move=> pki; rewrite (c_eq _ _ pki) (eqP pki) eqxx -(eqP pij) eqxx.
  by rewrite !mulr1n.
rewrite (eq_bigr _ termE) sumr_const -/(c i) -mulr_natr.
have ci_neq0 : (c i)%:R != 0 :> R by rewrite pnatr_eq0 -lt0n.
by field.
Qed.

Lemma system_matrix_sym_pd N D (self : Nonrigid R N D) (p : 'cV[R]_N)
    (s2 : R) :
  symmetric (m_g self) -> symmetric (system_matrix self p s2) ->
  positive_semidefinite (m_g self) -> nonnegative p ->
  0 < m_lambda self * s2 -> positive_definite (system_matrix self p s2).
Proof.
move=> G_sym /(system_matrix_sym_iff _ _ G_sym) comm G_psd p_ge0 mu_gt0.
move=> x x_neq0; rewrite /system_matrix.
rewrite quadratic_formD quadratic_formZ quadratic_form1.
apply: ltr_wpDl; first exact: commuting_diag_quadratic_form_ge0.
by rewrite mulr_gt0 // sum_sqr_gt0.
Qed.

End SystemMatrixFacts.

(** ** Kernels of coincident points *)
Section ExampleFacts.

Variable R : realFieldType.

Lemma symmetric_const n (c : R) : symmetric (const_mx c : 'M[R]_n).
Proof. by rewrite /symmetric trmx_const. Qed.

Lemma psd_scalar1 n : positive_semidefinite (1%:M : 'M[R]_n).
Proof.
by move=> x; rewrite quadratic_form1 sumr_ge0 // => i _; apply: sqr_ge0.
Qed.

Lemma psd_const1 n : positive_semidefinite (const_mx 1 : 'M[R]_n).
Proof.
move=> x; rewrite quadratic_formE.
have -> : \sum_i x i 0 * ((const_mx 1 : 'M[R]_n) *m x) i 0
          = (\sum_i x i 0) ^+ 2.
  rewrite expr2 mulr_suml; apply: eq_bigr => i _; congr (_ * _).
  by rewrite mxE; apply: eq_bigr => j _; rewrite mxE mul1r.
exact: sqr_ge0.
Qed.

Lemma nonnegative_const n (c : R) :
  0 <= c -> nonnegative (const_mx c : 'cV[R]_n).
Proof. by move=> c_ge0 i; rewrite mxE. Qed.

End ExampleFacts.

Lemma one_point_system_unit :
  system_matrix one_point_transform (p1 unit_statistics) 1 \in unitmx.
Proof.
apply: system_matrix_unit; first exact: psd_scalar1.
  exact: nonnegative_const.
by [].
Qed.

(** * Properties of the transform

    ** The object: [init], [modify_probabilities] and what keeps [m_w] *)
Section ObjectProperties.

Variable R : realFieldType.
Variable affinity :
  forall n m d : nat, 'M[R]_(n, d) -> 'M[R]_(m, d) -> R -> 'M[R]_(n, m).
Variable colPivHouseholderQr_solve :
  forall n d : nat, 'M[R]_n -> 'M[R]_(n, d) -> 'M[R]_(n, d).
Variable householderQr_solve :
  forall n d : nat, 'M[R]_n -> 'M[R]_(n, d) -> 'M[R]_(n, d).

Local Notation after_calls :=
  (after_calls colPivHouseholderQr_solve householderQr_solve).
Local Notation after_call :=
  (after_call colPivHouseholderQr_solve householderQr_solve).
Local Notation compute_one_call :=
  (compute_one_call colPivHouseholderQr_solve householderQr_solve).
Local Notation compute_one :=
  (compute_one colPivHouseholderQr_solve householderQr_solve).

Lemma after_call_m_w N D (self : Nonrigid R N D) (c : call R N D) :
  m_w (after_call self c) = m_w self.
Proof. by case: c. Qed.

Lemma after_calls_m_w N D (self : Nonrigid R N D) (cs : seq (call R N D)) :
  m_w (after_calls self cs) = m_w self.
Proof.
elim: cs self => [|c cs IHcs] self //=.
by rewrite /after_calls /= -/(after_calls _ cs) IHcs after_call_m_w.
Qed.

Lemma zero_weights_no_energy N D M' N' D' (self : Nonrigid R N D)
    (pr : Probabilities R M' N' D') :
  m_w self = 0 -> l (modify_probabilities self pr) = l pr.
Proof. by move=> /= ->; rewrite mulmx0 mxtrace0 mulr0 addr0. Qed.

(** C4: [modify_probabilities] adds [(lambda / 2) * trace (W^T G W)], with
    the stored [W] and [G], to the field [l] of the statistics, and leaves
    [p1], [pt1] and [px] as they were. *)
Theorem modify_probabilities_adds_energy N D M' N' D'
    (self : Nonrigid R N D) (pr : Probabilities R M' N' D') :
  [/\ l (modify_probabilities self pr)
      = l pr + m_lambda self / 2 * \tr ((m_w self)^T *m m_g self *m m_w self),
      p1 (modify_probabilities self pr) = p1 pr,
      pt1 (modify_probabilities self pr) = pt1 pr
    & px (modify_probabilities self pr) = px pr].
Proof. by split. Qed.

(** C5: after [init] the stored [m_w] is the zero matrix; it is still zero
    after any sequence of calls of the other member functions
    ([compute_one], [modify_probabilities], the setters, [linked()]), and so
    [modify_probabilities] adds 0 to [l]. *)
Theorem m_w_stays_zero_after_init N0 D0 M Df N D (self0 : Nonrigid R N0 D0)
    (fixed : 'M[R]_(M, Df)) (moving : 'M[R]_(N, D))
    (cs : seq (call R N D)) M' N' D' (pr : Probabilities R M' N' D') :
  [/\ m_w (init affinity self0 fixed moving) = 0,
      m_w (after_calls (init affinity self0 fixed moving) cs) = 0
    & l (modify_probabilities
           (after_calls (init affinity self0 fixed moving) cs) pr)
      = l pr].
Proof.
have w0 : m_w (after_calls (init affinity self0 fixed moving) cs) = 0.
  by rewrite after_calls_m_w.
by split=> //; apply: zero_weights_no_energy.
Qed.

(** C10: [init] does not read [fixed].  Two transforms with the same
    [lambda], [beta] and [linked], whatever they held before, are equal after
    [init (fixed1, moving)] and [init (fixed2, moving)]. *)
Theorem init_ignores_fixed N1 D1 N2 D2 M1 Df1 M2 Df2 N D
    (self1 : Nonrigid R N1 D1) (self2 : Nonrigid R N2 D2)
    (fixed1 : 'M[R]_(M1, Df1)) (fixed2 : 'M[R]_(M2, Df2))
    (moving : 'M[R]_(N, D)) :
  m_lambda self1 = m_lambda self2 ->
  m_beta self1 = m_beta self2 ->
  m_linked self1 = m_linked self2 ->
  init affinity self1 fixed1 moving = init affinity self2 fixed2 moving.
Proof. by rewrite /init => -> -> ->. Qed.

(** [compute_one] as it is written: declared [const], it leaves the object
    as it found it, the stored [m_w] included, and its result does not depend
    on the stored [m_w]. *)
Theorem compute_one_is_const (P : NonrigidPolicy) M N D
    (self : Nonrigid R N D) (fixed : 'M[R]_(M, D)) (moving : 'M[R]_(N, D))
    (pr : Probabilities R M N D) (s2 : R) :
  [/\ (compute_one_call P self fixed moving pr s2).2 = self,
      m_w (compute_one_call P self fixed moving pr s2).2 = m_w self
    & forall w : 'M[R]_(N, D),
        compute_one P
          (MkNonrigid (m_g self) w (m_lambda self) (m_beta self)
                      (m_linked self))
          fixed moving pr s2
        = compute_one P self fixed moving pr s2].
Proof. by split. Qed.

End ObjectProperties.

(** A fresh transform and one that was already initialised, three fixed
    points against one. *)
Lemma init_ignores_fixed_witness :
  [/\ m_lambda (Nonrigid_new rat true) = m_lambda one_point_transform,
      m_beta (Nonrigid_new rat true) = m_beta one_point_transform
    & m_linked (Nonrigid_new rat true) = m_linked one_point_transform]
  /\ init coincidence_kernel (Nonrigid_new rat true)
          (0 : 'M[rat]_(3, 1)) (const_mx 1 : 'M[rat]_(1, 1))
     = init coincidence_kernel one_point_transform
            (const_mx 1 : 'M[rat]_(1, 1)) (const_mx 1 : 'M[rat]_(1, 1)).
Proof.
split; first by split.
exact: (@init_ignores_fixed rat coincidence_kernel _ _ _ _ _ _ _ _ _ _
          (Nonrigid_new rat true) one_point_transform
          0 (const_mx 1) (const_mx 1) erefl erefl erefl).
Defined.

(** ** [compute_one]: the variance *)
Section VarianceProperties.

Variable R : realFieldType.
Variable colPivHouseholderQr_solve :
  forall n d : nat, 'M[R]_n -> 'M[R]_(n, d) -> 'M[R]_(n, d).
Variable householderQr_solve :
  forall n d : nat, 'M[R]_n -> 'M[R]_(n, d) -> 'M[R]_(n, d).

Local Notation compute_one :=
  (compute_one colPivHouseholderQr_solve householderQr_solve).
Local Notation solved_w :=
  (solved_w colPivHouseholderQr_solve householderQr_solve).

Lemma compute_oneE (P : NonrigidPolicy) M N D (self : Nonrigid R N D)
    (fixed : 'M[R]_(M, D)) (moving : 'M[R]_(N, D))
    (pr : Probabilities R M N D) (s2 : R) :
  compute_one P self fixed moving pr s2
  = MkNonrigidResult (moving + m_g self *m solved_w P self moving pr s2)
      (omap Num.norm
         (quotient
            (residual fixed (moving + m_g self *m solved_w P self moving pr s2)
                      pr)
            (vector_sum (p1 pr) * D%:R))).
Proof. by []. Qed.

(** C2, amended: the absolute value is taken of the whole quotient, so
    [sigma2_new] is the absolute value of the residual divided by the
    absolute value of [np * D]; it is the quotient the specification writes
    whenever [np >= 0]. *)
Theorem sigma2_is_norm_of_quotient (P : NonrigidPolicy) M N D
    (self : Nonrigid R N D) (fixed : 'M[R]_(M, D)) (moving : 'M[R]_(N, D))
    (pr : Probabilities R M N D) (s2 : R) :
  sigma2 (compute_one P self fixed moving pr s2)
  = quotient
      `| \sum_i \sum_j fixed i j ^+ 2 * pt1 pr i 0
         + \sum_i \sum_j
             points (compute_one P self fixed moving pr s2) i j ^+ 2
             * p1 pr i 0
         - 2 * \tr ((px pr)^T
                    *m points (compute_one P self fixed moving pr s2)) |
      `| (\sum_i p1 pr i 0) * D%:R |
  /\ (0 <= \sum_i p1 pr i 0 ->
      sigma2 (compute_one P self fixed moving pr s2)
      = sigma2_spec fixed (points (compute_one P self fixed moving pr s2))
                    pr).
Proof.
have eq_norm : sigma2 (compute_one P self fixed moving pr s2)
  = quotient
      `| \sum_i \sum_j fixed i j ^+ 2 * pt1 pr i 0
         + \sum_i \sum_j
             points (compute_one P self fixed moving pr s2) i j ^+ 2
             * p1 pr i 0
         - 2 * \tr ((px pr)^T
                    *m points (compute_one P self fixed moving pr s2)) |
      `| (\sum_i p1 pr i 0) * D%:R |.
  by rewrite /= norm_quotient residualE.
split=> // np_ge0; rewrite eq_norm /sigma2_spec.
by rewrite [X in quotient _ X]ger0_norm // mulr_ge0 // ler0n.
Qed.

(** C8: with [np = sum p1 > 0], a finite [sigma2] returned by [compute_one]
    is [>= 0]; and it is finite as soon as there is a column to divide by. *)
Theorem sigma2_nonnegative (P : NonrigidPolicy) M N D
    (self : Nonrigid R N D) (fixed : 'M[R]_(M, D)) (moving : 'M[R]_(N, D))
    (pr : Probabilities R M N D) (s2 : R) :
  0 < vector_sum (p1 pr) ->
  (forall s, sigma2 (compute_one P self fixed moving pr s2) = Some s ->
     0 <= s)
  /\ ((0 < D)%N ->
      exists2 s, sigma2 (compute_one P self fixed moving pr s2) = Some s
               & 0 <= s).
Proof.
move=> np_gt0; split=> [s | D_gt0].
  rewrite compute_oneE /= /quotient; case: ifP => //= _ [<-].
  exact: normr_ge0.
have den_neq0 : vector_sum (p1 pr) * D%:R != 0.
  by apply: mulf_neq0; [rewrite gt_eqF | rewrite pnatr_eq0 -lt0n].
by rewrite /= quotient_some //=; eexists; first by []; apply: normr_ge0.
Qed.

End VarianceProperties.

(** The variance of [compute_one] against the specification's, at a mass of
    [-1]: the code returns 1, the specification's quotient is -1. *)
Lemma sigma2_differs_from_spec :
  sigma2 (compute_one (@exact_solve rat) (@exact_solve rat) PRECISION
            one_point_transform (const_mx 1) 0 negative_statistics 1)
  <> sigma2_spec (const_mx 1)
       (points (compute_one (@exact_solve rat) (@exact_solve rat) PRECISION
                  one_point_transform (const_mx 1) 0 negative_statistics 1))
       negative_statistics.
Proof.
rewrite compute_oneE /solved_w /policy_solve /exact_solve.
rewrite /system_rhs /= !mulmx0 subr0 !mulmx0 addr0.
rewrite residualE /sigma2_spec /vector_sum /= mulmx0 mxtrace0.
by rewrite !big_ord1 !mxE /quotient.
Qed.

Lemma sigma2_is_norm_of_quotient_witness :
  0 <= \sum_i p1 unit_statistics i 0
  /\ sigma2 (compute_one (@exact_solve rat) (@exact_solve rat) PRECISION
               one_point_transform (const_mx 1) 0 unit_statistics 1)
     = sigma2_spec (const_mx 1)
         (points (compute_one (@exact_solve rat) (@exact_solve rat) PRECISION
                    one_point_transform (const_mx 1) 0 unit_statistics 1))
         unit_statistics.
Proof.
have np_ge0 : 0 <= \sum_i p1 unit_statistics i 0 :> rat.
  by rewrite big_ord1 mxE.
split=> //.
have [_] := sigma2_is_norm_of_quotient (@exact_solve rat) (@exact_solve rat)
              PRECISION one_point_transform (const_mx 1) 0 unit_statistics 1.
exact.
Defined.

Lemma sigma2_nonnegative_witness :
  0 < vector_sum (p1 unit_statistics)
  /\ exists2 s,
       sigma2 (compute_one (@exact_solve rat) (@exact_solve rat) PRECISION
                 one_point_transform (const_mx 1) 0 unit_statistics 1)
       = Some s & 0 <= s.
Proof.
have np_gt0 : 0 < vector_sum (p1 unit_statistics).
  by rewrite vector_sum_const.
split=> //.
have [_] := sigma2_nonnegative (@exact_solve rat) (@exact_solve rat)
              PRECISION one_point_transform (const_mx 1) 0 1 np_gt0.
exact.
Defined.

(** ** [compute_one]: the solve, under the contract of the two
    decompositions *)
Section SolveProperties.

Variable R : realFieldType.
Variable colPivHouseholderQr_solve :
  forall n d : nat, 'M[R]_n -> 'M[R]_(n, d) -> 'M[R]_(n, d).
Variable householderQr_solve :
  forall n d : nat, 'M[R]_n -> 'M[R]_(n, d) -> 'M[R]_(n, d).

Hypothesis colPivHouseholderQr_solveP :
  solves_invertible colPivHouseholderQr_solve.
Hypothesis householderQr_solveP : solves_invertible householderQr_solve.

Local Notation compute_one :=
  (compute_one colPivHouseholderQr_solve householderQr_solve).
Local Notation solved_w :=
  (solved_w colPivHouseholderQr_solve householderQr_solve).
Local Notation policy_solve :=
  (policy_solve colPivHouseholderQr_solve householderQr_solve).

Lemma policy_solveP (P : NonrigidPolicy) n d (A : 'M[R]_n)
    (b : 'M[R]_(n, d)) :
  A \in unitmx -> A *m policy_solve P A b = b.
Proof.
case: P => Au; first exact: colPivHouseholderQr_solveP.
exact: householderQr_solveP.
Qed.

Lemma policy_solve_unique (P : NonrigidPolicy) n d (A : 'M[R]_n)
    (b x : 'M[R]_(n, d)) :
  A \in unitmx -> A *m x = b -> x = policy_solve P A b.
Proof.
move=> Au Ax; rewrite -[x](mulKmx Au) Ax.
by rewrite -[in LHS](policy_solveP P b Au) mulKmx.
Qed.

(** C1, amended: whenever the matrix [dP G + lambda sigma2 I] is invertible,
    the [W] of [compute_one] is the solution of
    [(dP G + lambda sigma2 I) W = px - dP moving], the only one, and the
    points returned are [moving + G W]. *)
Theorem compute_one_solves_system (P : NonrigidPolicy) M N D
    (self : Nonrigid R N D) (fixed : 'M[R]_(M, D)) (moving : 'M[R]_(N, D))
    (pr : Probabilities R M N D) (s2 : R) :
  asDiagonal (p1 pr) *m m_g self + (m_lambda self * s2) *: 1%:M \in unitmx ->
  [/\ (asDiagonal (p1 pr) *m m_g self + (m_lambda self * s2) *: 1%:M)
        *m solved_w P self moving pr s2
      = px pr - asDiagonal (p1 pr) *m moving,
      forall W : 'M[R]_(N, D),
        (asDiagonal (p1 pr) *m m_g self + (m_lambda self * s2) *: 1%:M) *m W
        = px pr - asDiagonal (p1 pr) *m moving ->
        W = solved_w P self moving pr s2
    & points (compute_one P self fixed moving pr s2)
      = moving + m_g self *m solved_w P self moving pr s2].
Proof.
move=> Au; split=> //; first exact: policy_solveP.
by move=> W; apply: policy_solve_unique.
Qed.

(** C9: on an invertible system the two policies solve for the same [W], and
    the two instances of [compute_one] return the same points and the same
    variance. *)
Theorem policies_agree M N D (self : Nonrigid R N D)
    (fixed : 'M[R]_(M, D)) (moving : 'M[R]_(N, D))
    (pr : Probabilities R M N D) (s2 : R) :
  system_matrix self (p1 pr) s2 \in unitmx ->
  [/\ solved_w PRECISION self moving pr s2
      = solved_w PERFORMANCE self moving pr s2,
      points (compute_one PRECISION self fixed moving pr s2)
      = points (compute_one PERFORMANCE self fixed moving pr s2)
    & sigma2 (compute_one PRECISION self fixed moving pr s2)
      = sigma2 (compute_one PERFORMANCE self fixed moving pr s2)].
Proof.
move=> Au.
have eqw : solved_w PRECISION self moving pr s2
           = solved_w PERFORMANCE self moving pr s2.
  apply: (policy_solve_unique PERFORMANCE Au).
  exact: (policy_solveP PRECISION).
by split=> //; rewrite !compute_oneE eqw.
Qed.

(** C6, amended: with at least one point and one column and an invertible
    matrix [G + lambda sigma2 I], if [moving = fixed], [p1] and [pt1] are all
    ones and [px = moving], then the solved [W] is zero, the points returned
    are [moving] and the variance returned is 0. *)
Theorem zero_displacement_fixed_point (P : NonrigidPolicy) N D
    (self : Nonrigid R N D) (fixed moving : 'M[R]_(N, D))
    (pr : Probabilities R N N D) (s2 : R) :
  moving = fixed -> p1 pr = const_mx 1 -> pt1 pr = const_mx 1 ->
  px pr = moving ->
  system_matrix self (p1 pr) s2 \in unitmx -> (0 < N)%N -> (0 < D)%N ->
  [/\ solved_w P self moving pr s2 = 0,
      points (compute_one P self fixed moving pr s2) = moving
    & sigma2 (compute_one P self fixed moving pr s2) = Some 0].
Proof.
move=> <- p1E pt1E pxE Au N_gt0 D_gt0.
have rhs0 : system_rhs moving pr = 0.
  by rewrite /system_rhs p1E pxE asDiagonal_const mul1mx subrr.
have w0 : solved_w P self moving pr s2 = 0.
  apply/esym/(policy_solve_unique P Au).
  by rewrite mulmx0 rhs0.
rewrite compute_oneE w0 mulmx0 addr0; split=> //=.
have -> : residual moving moving pr = 0.
  rewrite residualE p1E pt1E pxE mxtrace_tr_mul.
  under eq_bigr do under eq_bigr do rewrite mxE mulr1.
  under [X in _ - 2 * X]eq_bigr do under eq_bigr do rewrite -expr2.
  by rewrite -mulr2n -mulr_natl subrr.
rewrite p1E vector_sum_const quotient_some /= ?mul0r ?normr0 //.
by apply: mulf_neq0; rewrite pnatr_eq0 -lt0n.
Qed.

End SolveProperties.

(** No mass on the moving point and [sigma2 = 0]: the matrix of the system is
    zero, the right-hand side is not, and no [W] solves the system. *)
Lemma singular_system_has_no_solution :
  ~ exists W : 'M[rat]_(1, 1),
      system_matrix one_point_transform (p1 massless_statistics) 0 *m W
      = system_rhs 0 massless_statistics.
Proof.
case=> W /matrixP/(_ ord0 ord0).
rewrite system_matrix_mul /system_rhs /= mulmx0 subr0 !mxE.
by rewrite mul0r mulr0 mul0r addr0.
Qed.

Lemma compute_one_solves_system_witness :
  system_matrix one_point_transform (p1 unit_statistics) 1 \in unitmx
  /\ system_matrix one_point_transform (p1 unit_statistics) 1
       *m solved_w (@exact_solve rat) (@exact_solve rat) PRECISION
            one_point_transform 0 unit_statistics 1
     = system_rhs 0 unit_statistics.
Proof.
split; first exact: one_point_system_unit.
have [] := compute_one_solves_system (@exact_solveP rat) (@exact_solveP rat)
             PRECISION (0 : 'M_(1, 1)) 0 one_point_system_unit.
by [].
Defined.

Lemma policies_agree_witness :
  system_matrix one_point_transform (p1 unit_statistics) 1 \in unitmx
  /\ points (compute_one (@exact_solve rat) (@exact_solve rat) PRECISION
               one_point_transform (const_mx 1) 0 unit_statistics 1)
     = points (compute_one (@exact_solve rat) (@exact_solve rat) PERFORMANCE
                 one_point_transform (const_mx 1) 0 unit_statistics 1).
Proof.
split; first exact: one_point_system_unit.
have [] := policies_agree (@exact_solveP rat) (@exact_solveP rat)
             (const_mx 1 : 'M_(1, 1)) 0 one_point_system_unit.
by [].
Defined.

(** One pair of points in dimension 0: the statistics are one-to-one,
    [moving = fixed], and the variance is not finite. *)
Lemma zero_displacement_fails_dim0 :
  [/\ p1 unit_statistics_dim0 = const_mx 1,
      pt1 unit_statistics_dim0 = const_mx 1,
      px unit_statistics_dim0 = 0
    & sigma2 (compute_one (@exact_solve rat) (@exact_solve rat) PRECISION
                one_point_transform_dim0 0 0 unit_statistics_dim0 1)
      <> Some 0].
Proof. by split=> //; rewrite compute_oneE mulr0 quotient_none. Qed.

Lemma zero_displacement_fixed_point_witness :
  [/\ p1 unit_statistics = const_mx 1, pt1 unit_statistics = const_mx 1,
      px unit_statistics = const_mx 1
    & system_matrix one_point_transform (p1 unit_statistics) 1 \in unitmx]
  /\ [/\ solved_w (@exact_solve rat) (@exact_solve rat) PERFORMANCE
           one_point_transform (const_mx 1) unit_statistics 1 = 0,
         points (compute_one (@exact_solve rat) (@exact_solve rat) PERFORMANCE
                   one_point_transform (const_mx 1) (const_mx 1)
                   unit_statistics 1) = const_mx 1
       & sigma2 (compute_one (@exact_solve rat) (@exact_solve rat) PERFORMANCE
                   one_point_transform (const_mx 1) (const_mx 1)
                   unit_statistics 1) = Some 0].
Proof.
split; first by split=> //; exact: one_point_system_unit.
exact: (@zero_displacement_fixed_point rat _ _
          (@exact_solveP rat) (@exact_solveP rat) PERFORMANCE 1 1
          one_point_transform (const_mx 1) (const_mx 1) unit_statistics 1
          erefl erefl erefl erefl one_point_system_unit
          (ltn0Sn 0) (ltn0Sn 0)).
Defined.

(** C3: the code at the failing input.  After [init] on one moving point at
    0 and [compute_one] with the fixed point at 1, [p1 = pt1 = px = 1] and
    [sigma2 = 1], the [m_w] stored in the object is not the [W] solved in the
    call: the solve went to a local [w] and [m_w] is still zero. *)
Lemma stored_w_is_not_solved_w :
  m_w (compute_one_call (@exact_solve rat) (@exact_solve rat) PRECISION
         one_point_transform (const_mx 1) 0 unit_statistics 1).2
  <> solved_w (@exact_solve rat) (@exact_solve rat) PRECISION
       one_point_transform 0 unit_statistics 1.
Proof.
move=> w0.
have w0' : solved_w (@exact_solve rat) (@exact_solve rat) PRECISION
             one_point_transform 0 unit_statistics 1 = 0 := esym w0.
have Aw : system_matrix one_point_transform (p1 unit_statistics) 1
            *m solved_w (@exact_solve rat) (@exact_solve rat) PRECISION
                 one_point_transform 0 unit_statistics 1
          = system_rhs 0 unit_statistics.
  exact: (policy_solveP (@exact_solveP rat) (@exact_solveP rat) PRECISION
            (system_rhs 0 unit_statistics) one_point_system_unit).
move: Aw; rewrite w0' mulmx0 => /matrixP/(_ ord0 ord0).
by rewrite /system_rhs /= mulmx0 subr0 !mxE.
Qed.

(** ** The matrix of the system: symmetry and definiteness *)
Section OperatorProperties.

Variable R : realFieldType.

(** C7, amended: for a symmetric [G] the matrix [dP G + lambda sigma2 I] is
    symmetric exactly when [dP] commutes with [G], as it does when all the
    entries of [p1] are equal.  When moreover [G] is positive semi-definite,
    [p1 >= 0] and [lambda sigma2 > 0], the matrix is invertible, and it is
    positive-definite whenever it is symmetric. *)
Theorem system_matrix_symmetric_definite N D (self : Nonrigid R N D)
    (p : 'cV[R]_N) (s2 : R) :
  symmetric (m_g self) ->
  [/\ symmetric (system_matrix self p s2)
      <-> asDiagonal p *m m_g self = m_g self *m asDiagonal p,
      forall c : R, p = const_mx c -> symmetric (system_matrix self p s2),
      positive_semidefinite (m_g self) -> nonnegative p ->
      0 < m_lambda self * s2 -> system_matrix self p s2 \in unitmx
    & symmetric (system_matrix self p s2) ->
      positive_semidefinite (m_g self) -> nonnegative p ->
      0 < m_lambda self * s2 ->
      positive_definite (system_matrix self p s2)].
Proof.
move=> G_sym; split; first exact: system_matrix_sym_iff.
- by move=> c ->; apply: system_matrix_sym_uniform.
- exact: system_matrix_unit.
- exact: system_matrix_sym_pd.
Qed.

End OperatorProperties.

Lemma system_matrix_symmetric_definite_witness :
  symmetric (m_g two_point_transform)
  /\ [/\ symmetric (system_matrix two_point_transform (const_mx 1) 1),
         system_matrix two_point_transform (const_mx 1) 1 \in unitmx
       & positive_definite (system_matrix two_point_transform (const_mx 1) 1)].
Proof.
have G_sym : symmetric (m_g two_point_transform) by exact: symmetric_const.
have G_psd : positive_semidefinite (m_g two_point_transform).
  exact: psd_const1.
have mu_gt0 : 0 < m_lambda two_point_transform * 1 :> rat by [].
have p_ge0 : nonnegative (const_mx 1 : 'cV[rat]_2).
  exact: nonnegative_const.
have [_ Asym Au Apd] :=
  system_matrix_symmetric_definite (const_mx 1) 1 G_sym.
split=> //; split; first exact: (Asym 1).
  exact: Au.
by apply: Apd => //; apply: (Asym 1).
Defined.

(** Two coincident moving points with masses 16 and 0, [lambda = 3] and
    [sigma2 = 1]: the kernel is symmetric and [lambda sigma2 > 0], yet the
    matrix of the system, [[19, 16], [0, 3]], is not symmetric, and its
    quadratic form is -1 at (1, -2). *)
Lemma system_matrix_not_symmetric_nor_definite :
  [/\ symmetric (m_g two_point_transform),
      0 < m_lambda two_point_transform * 1,
      ~ symmetric (system_matrix two_point_transform uneven_p1 1)
    & ~ positive_definite (system_matrix two_point_transform uneven_p1 1)].
Proof.
split.
- exact: symmetric_const.
- by [].
- move/matrixP/(_ ord0 ord_max).
  by rewrite mxE !system_matrixE !mxE.
- have x_neq0 : skew_direction != 0.
    by apply/eqP => /matrixP/(_ ord0 ord0); rewrite !mxE.
  move/(_ skew_direction x_neq0).
  rewrite quadratic_formE !big_ord_recl big_ord0 !system_matrix_mul.
  by rewrite !mxE !big_ord_recl !big_ord0 !mxE /=.
Qed.

(** * Further properties

    ** What the calls between [init] and [compute_one] can change *)
Section CallProperties.

Variable R : realFieldType.
Variable affinity :
  forall n m d : nat, 'M[R]_(n, d) -> 'M[R]_(m, d) -> R -> 'M[R]_(n, m).
Variable colPivHouseholderQr_solve :
  forall n d : nat, 'M[R]_n -> 'M[R]_(n, d) -> 'M[R]_(n, d).
Variable householderQr_solve :
  forall n d : nat, 'M[R]_n -> 'M[R]_(n, d) -> 'M[R]_(n, d).

Local Notation after_calls :=
  (after_calls colPivHouseholderQr_solve householderQr_solve).
Local Notation after_call :=
  (after_call colPivHouseholderQr_solve householderQr_solve).
Local Notation compute_one :=
  (compute_one colPivHouseholderQr_solve householderQr_solve).

Lemma after_calls_rcons N D (self : Nonrigid R N D) (cs : seq (call R N D))
    (c : call R N D) :
  after_calls self (rcons cs c) = after_call (after_calls self cs) c.
Proof. by rewrite /after_calls -cats1 foldl_cat. Qed.

Lemma after_call_m_g N D (self : Nonrigid R N D) (c : call R N D) :
  m_g (after_call self c) = m_g self.
Proof. by case: c. Qed.

Lemma after_calls_m_g N D (self : Nonrigid R N D) (cs : seq (call R N D)) :
  m_g (after_calls self cs) = m_g self.
Proof.
elim/last_ind: cs => [|cs c IHcs] //.
by rewrite after_calls_rcons after_call_m_g.
Qed.

(** [compute_one] reads the object through [m_g] and through the product
    [m_lambda * sigma2] only. *)
Lemma compute_one_congr (P : NonrigidPolicy) M N D
    (self1 self2 : Nonrigid R N D) (fixed : 'M[R]_(M, D))
    (moving : 'M[R]_(N, D)) (pr : Probabilities R M N D) (s1 s2 : R) :
  m_g self1 = m_g self2 -> m_lambda self1 * s1 = m_lambda self2 * s2 ->
  compute_one P self1 fixed moving pr s1
  = compute_one P self2 fixed moving pr s2.
Proof.
move=> eqG eqmu; rewrite !compute_oneE.
by rewrite /solved_w /system_matrix eqG eqmu.
Qed.

(** X1: the kernel is computed by [init] and by nothing else.  After any
    calls of the other member functions, [beta] included, [m_g] is still the
    kernel of the moving set given to [init] for the bandwidth held at that
    time, even when [m_beta] has been set to another value since. *)
Theorem kernel_frozen_after_init N0 D0 M Df N D (self0 : Nonrigid R N0 D0)
    (fixed : 'M[R]_(M, Df)) (moving : 'M[R]_(N, D))
    (cs : seq (call R N D)) (b : R) :
  [/\ m_g (after_calls (init affinity self0 fixed moving) cs)
      = affinity moving moving (m_beta self0),
      m_beta (after_calls (init affinity self0 fixed moving)
                (rcons cs (CallBeta N D b))) = b
    & m_g (after_calls (init affinity self0 fixed moving)
             (rcons cs (CallBeta N D b)))
      = affinity moving moving (m_beta self0)].
Proof.
by split; rewrite ?after_calls_m_g // after_calls_rcons.
Qed.

(** X2: [lambda] and [sigma2] enter [compute_one] only as their product, and
    of the members only [m_g] and [m_lambda] are read: two objects with the
    same kernel give the same result when [lambda * sigma2] is the same. *)
Theorem compute_one_reads_kernel_and_product (P : NonrigidPolicy) M N D
    (self1 self2 : Nonrigid R N D) (fixed : 'M[R]_(M, D))
    (moving : 'M[R]_(N, D)) (pr : Probabilities R M N D) (s1 s2 : R) :
  m_g self1 = m_g self2 -> m_lambda self1 * s1 = m_lambda self2 * s2 ->
  compute_one P self1 fixed moving pr s1
  = compute_one P self2 fixed moving pr s2.
Proof. exact: compute_one_congr. Qed.

Lemma lambda_calls_cons N D (c : call R N D) (cs : seq (call R N D)) :
  lambda_calls (c :: cs)
  = if c is CallLambda lam then lam :: lambda_calls cs else lambda_calls cs.
Proof. by case: c. Qed.

Lemma after_calls_m_lambda N D (self : Nonrigid R N D)
    (cs : seq (call R N D)) :
  m_lambda (after_calls self cs) = last (m_lambda self) (lambda_calls cs).
Proof.
elim: cs self => [|c cs IHcs] self //.
rewrite lambda_calls_cons /after_calls /= -/(after_calls _ cs) IHcs.
by case: c.
Qed.

(** X3: of the calls made on a transform, only those of [lambda] change what
    [compute_one] returns.  After any sequence of calls [m_lambda] is the
    argument of the last call of [lambda] in the sequence (the value it had
    when there is none), and [compute_one] returns what it returns on the
    first object with that value set. *)
Theorem only_lambda_calls_matter (P : NonrigidPolicy) M N D
    (self : Nonrigid R N D) (cs : seq (call R N D))
    (fixed : 'M[R]_(M, D)) (moving : 'M[R]_(N, D))
    (pr : Probabilities R M N D) (s2 : R) :
  [/\ m_lambda (after_calls self cs)
      = last (m_lambda self) (lambda_calls cs),
      compute_one P (after_calls self cs) fixed moving pr s2
      = compute_one P (lambda self (last (m_lambda self) (lambda_calls cs)))
          fixed moving pr s2
    & lambda_calls cs = [::] ->
      compute_one P (after_calls self cs) fixed moving pr s2
      = compute_one P self fixed moving pr s2].
Proof.
split; first exact: after_calls_m_lambda.
  by apply: compute_one_congr; rewrite ?after_calls_m_g ?after_calls_m_lambda.
move=> no_lambda; apply: compute_one_congr; rewrite ?after_calls_m_g //.
by rewrite after_calls_m_lambda no_lambda.
Qed.

End CallProperties.

Lemma only_lambda_calls_matter_witness :
  lambda_calls [:: @CallBeta rat 1 1 5; @CallSetLinked rat 1 1 false] = [::]
  /\ compute_one (@exact_solve rat) (@exact_solve rat) PRECISION
       (after_calls (@exact_solve rat) (@exact_solve rat) one_point_transform
          [:: @CallBeta rat 1 1 5; @CallSetLinked rat 1 1 false])
       (const_mx 1) 0 unit_statistics 1
     = compute_one (@exact_solve rat) (@exact_solve rat) PRECISION
         one_point_transform (const_mx 1) 0 unit_statistics 1.
Proof.
have no_lambda :
    lambda_calls [:: @CallBeta rat 1 1 5; @CallSetLinked rat 1 1 false]
    = [::] by [].
split; first exact: no_lambda.
have [_ _ unchanged] :=
  only_lambda_calls_matter (@exact_solve rat) (@exact_solve rat) PRECISION
    one_point_transform
    [:: @CallBeta rat 1 1 5; @CallSetLinked rat 1 1 false]
    (const_mx 1) 0 unit_statistics 1.
exact: unchanged.
Defined.

Lemma compute_one_reads_kernel_and_product_witness :
  [/\ m_g one_point_transform = m_g (lambda one_point_transform 6)
    & m_lambda one_point_transform * 2
      = m_lambda (lambda one_point_transform 6) * 1]
  /\ compute_one (@exact_solve rat) (@exact_solve rat) PERFORMANCE
       one_point_transform (const_mx 1) 0 unit_statistics 2
     = compute_one (@exact_solve rat) (@exact_solve rat) PERFORMANCE
         (lambda one_point_transform 6) (const_mx 1) 0 unit_statistics 1.
Proof.
have eqmu : m_lambda one_point_transform * 2
            = m_lambda (lambda one_point_transform 6) * 1 :> rat by [].
split; first by split.
exact: (@compute_one_reads_kernel_and_product rat _ _ PERFORMANCE _ _ _
          one_point_transform (lambda one_point_transform 6)
          (const_mx 1) 0 unit_statistics 2 1 erefl eqmu).
Defined.

(** ** The solve: what the returned points satisfy *)
Section SolveFurther.

Variable R : realFieldType.
Variable colPivHouseholderQr_solve :
  forall n d : nat, 'M[R]_n -> 'M[R]_(n, d) -> 'M[R]_(n, d).
Variable householderQr_solve :
  forall n d : nat, 'M[R]_n -> 'M[R]_(n, d) -> 'M[R]_(n, d).

Local Notation compute_one :=
  (compute_one colPivHouseholderQr_solve householderQr_solve).
Local Notation solved_w :=
  (solved_w colPivHouseholderQr_solve householderQr_solve).
Local Notation policy_solve :=
  (policy_solve colPivHouseholderQr_solve householderQr_solve).

Lemma solved_wE (P : NonrigidPolicy) M N D (self : Nonrigid R N D)
    (moving : 'M[R]_(N, D)) (pr : Probabilities R M N D) (s2 : R) :
  solved_w P self moving pr s2
  = policy_solve P (system_matrix self (p1 pr) s2) (system_rhs moving pr).
Proof. by []. Qed.

(** X5: [compute_one] sees [moving] and [px] only through
    [px - dP moving].  Moving every point by [S] and the statistics [px] by
    [dP S] leaves the solved [W] as it is and moves the returned points by
    [S]; nothing is assumed on the solve. *)
Theorem compute_one_shift (P : NonrigidPolicy) M M' N D
    (self : Nonrigid R N D) (fixed : 'M[R]_(M, D)) (fixed' : 'M[R]_(M', D))
    (moving S : 'M[R]_(N, D)) (pr : Probabilities R M N D)
    (pr' : Probabilities R M' N D) (s2 : R) :
  p1 pr' = p1 pr -> px pr' = px pr + asDiagonal (p1 pr) *m S ->
  solved_w P self (moving + S) pr' s2 = solved_w P self moving pr s2
  /\ points (compute_one P self fixed' (moving + S) pr' s2)
     = points (compute_one P self fixed moving pr s2) + S.
Proof.
move=> p1E pxE.
have rhsE : system_rhs (moving + S) pr' = system_rhs moving pr.
  by rewrite /system_rhs p1E pxE mulmxDr opprD addrACA subrr addr0.
have wE : solved_w P self (moving + S) pr' s2 = solved_w P self moving pr s2.
  by rewrite !solved_wE rhsE p1E.
by split=> //; rewrite !compute_oneE /= wE addrAC.
Qed.

Hypothesis colPivHouseholderQr_solveP :
  solves_invertible colPivHouseholderQr_solve.
Hypothesis householderQr_solveP : solves_invertible householderQr_solve.

Local Notation solveP :=
  (policy_solveP colPivHouseholderQr_solveP householderQr_solveP).
Local Notation solve_unique :=
  (policy_solve_unique colPivHouseholderQr_solveP householderQr_solveP).

(** X6: on an invertible system the returned points and the solved [W]
    satisfy [dP points_new + lambda sigma2 W = px].  Without regularisation
    ([lambda sigma2 = 0]) this is [dP points_new = px]: each point goes to
    its target [px_i / p1_i]. *)
Theorem compute_one_stationary (P : NonrigidPolicy) M N D
    (self : Nonrigid R N D) (fixed : 'M[R]_(M, D)) (moving : 'M[R]_(N, D))
    (pr : Probabilities R M N D) (s2 : R) :
  system_matrix self (p1 pr) s2 \in unitmx ->
  asDiagonal (p1 pr) *m points (compute_one P self fixed moving pr s2)
  + (m_lambda self * s2) *: solved_w P self moving pr s2 = px pr
  /\ (m_lambda self * s2 = 0 ->
      asDiagonal (p1 pr) *m points (compute_one P self fixed moving pr s2)
      = px pr).
Proof.
move=> Au.
have eqs : asDiagonal (p1 pr)
             *m points (compute_one P self fixed moving pr s2)
           + (m_lambda self * s2) *: solved_w P self moving pr s2 = px pr.
  have := solveP P (system_rhs moving pr) Au.
  rewrite -/(solved_w P self moving pr s2) /system_matrix /system_rhs.
  rewrite mulmxDl -scalemxAl mul1mx compute_oneE /= mulmxDr mulmxA.
  by rewrite -addrA => ->; rewrite addrC subrK.
by split=> // mu0; rewrite -[RHS]eqs mu0 scale0r addr0.
Qed.

(** X7: scaling the two point sets and [px] by [a] scales the solved [W] and
    the returned points by [a] and the returned variance by [a^2], on an
    invertible system and for the same object. *)
Theorem compute_one_scale (P : NonrigidPolicy) M N D
    (self : Nonrigid R N D) (fixed : 'M[R]_(M, D)) (moving : 'M[R]_(N, D))
    (pr pr' : Probabilities R M N D) (s2 a : R) :
  system_matrix self (p1 pr) s2 \in unitmx ->
  p1 pr' = p1 pr -> pt1 pr' = pt1 pr -> px pr' = a *: px pr ->
  [/\ solved_w P self (a *: moving) pr' s2 = a *: solved_w P self moving pr s2,
      points (compute_one P self (a *: fixed) (a *: moving) pr' s2)
      = a *: points (compute_one P self fixed moving pr s2)
    & sigma2 (compute_one P self (a *: fixed) (a *: moving) pr' s2)
      = omap (fun s => a ^+ 2 * s)
          (sigma2 (compute_one P self fixed moving pr s2))].
Proof.
move=> Au p1E pt1E pxE.
have wE : solved_w P self (a *: moving) pr' s2
          = a *: solved_w P self moving pr s2.
  apply/esym; rewrite [RHS]solved_wE p1E; apply: solve_unique => //.
  rewrite -scalemxAr (solveP P _ Au) /system_rhs p1E pxE.
  by rewrite scalerBr scalemxAr.
have ptsE : a *: moving + m_g self *m (a *: solved_w P self moving pr s2)
            = a *: (moving + m_g self *m solved_w P self moving pr s2).
  by rewrite scalerDr scalemxAr.
rewrite !compute_oneE /= wE ptsE; split=> //.
set pts := moving + _.
have -> : residual (a *: fixed) (a *: pts) pr'
          = a ^+ 2 * residual fixed pts pr.
  rewrite !residualE p1E pt1E pxE !mxtrace_tr_mul mulrBr mulrDr !mulr_sumr.
  congr (_ + _ - _).
  - apply: eq_bigr => i _; rewrite mulr_sumr; apply: eq_bigr => j _.
    by rewrite !mxE exprMn mulrA.
  - apply: eq_bigr => i _; rewrite mulr_sumr; apply: eq_bigr => j _.
    by rewrite !mxE exprMn mulrA.
  apply: eq_bigr => i _; rewrite !mulr_sumr; apply: eq_bigr => j _.
  by rewrite !mxE; ring.
rewrite p1E /quotient; case: ifP => //= _.
by rewrite -mulrA normrM ger0_norm ?sqr_ge0.
Qed.

(** X8: on an invertible system, if every moving point already sits at its
    target ([px = dP moving]) the solved [W] is zero and the points are
    returned as they are; and when the kernel is invertible too, this is the
    only way for [compute_one] to leave the points in place. *)
Theorem compute_one_fixed_point (P : NonrigidPolicy) M N D
    (self : Nonrigid R N D) (fixed : 'M[R]_(M, D)) (moving : 'M[R]_(N, D))
    (pr : Probabilities R M N D) (s2 : R) :
  system_matrix self (p1 pr) s2 \in unitmx ->
  (px pr = asDiagonal (p1 pr) *m moving ->
   solved_w P self moving pr s2 = 0
   /\ points (compute_one P self fixed moving pr s2) = moving)
  /\ (m_g self \in unitmx ->
      points (compute_one P self fixed moving pr s2) = moving ->
      px pr = asDiagonal (p1 pr) *m moving).
Proof.
move=> Au; split=> [pxE | Gu].
  have w0 : solved_w P self moving pr s2 = 0.
    apply/esym/solve_unique => //.
    by rewrite mulmx0 /system_rhs pxE subrr.
  by rewrite compute_oneE /= w0 mulmx0 addr0.
rewrite compute_oneE /= => /eqP; rewrite -subr_eq0 addrAC subrr add0r.
move/eqP => Gw0.
have w0 : solved_w P self moving pr s2 = 0.
  by rewrite -[LHS](mulKmx Gu) Gw0 mulmx0.
have := solveP P (system_rhs moving pr) Au.
rewrite -/(solved_w P self moving pr s2) w0 mulmx0 /system_rhs.
by move/esym/eqP; rewrite subr_eq0 => /eqP.
Qed.

(** X9: for a positive semi-definite kernel, non-negative masses and
    [lambda sigma2 > 0] the system of [compute_one] has exactly one solution,
    the [W] of either policy, and the two policies return the same result:
    no condition on the rank of [dP G] is needed. *)
Theorem compute_one_well_posed M N D (self : Nonrigid R N D)
    (fixed : 'M[R]_(M, D)) (moving : 'M[R]_(N, D))
    (pr : Probabilities R M N D) (s2 : R) :
  positive_semidefinite (m_g self) -> nonnegative (p1 pr) ->
  0 < m_lambda self * s2 ->
  [/\ forall P,
        system_matrix self (p1 pr) s2 *m solved_w P self moving pr s2
        = system_rhs moving pr,
      forall P (W : 'M[R]_(N, D)),
        system_matrix self (p1 pr) s2 *m W = system_rhs moving pr ->
        W = solved_w P self moving pr s2
    & compute_one PRECISION self fixed moving pr s2
      = compute_one PERFORMANCE self fixed moving pr s2].
Proof.
move=> G_psd p_ge0 mu_gt0.
have Au := system_matrix_unit G_psd p_ge0 mu_gt0.
split=> [P | P W | ]; first exact: solveP.
  exact: solve_unique.
rewrite !compute_oneE.
have -> // : solved_w PRECISION self moving pr s2
             = solved_w PERFORMANCE self moving pr s2.
by apply: solve_unique => //; apply: solveP.
Qed.

Lemma col_mulmx m n p (A : 'M[R]_(m, n)) (B : 'M[R]_(n, p)) (j : 'I_p) :
  col j (A *m B) = A *m col j B.
Proof. by rewrite !colE mulmxA. Qed.

(** X10: the coordinates do not mix.  On an invertible system, for a given
    object, [p1] and [sigma2], column [j] of the returned points is computed
    from column [j] of [moving] and of [px] alone, under either policy. *)
Theorem compute_one_columnwise (P P' : NonrigidPolicy) M M' N D
    (self : Nonrigid R N D) (fixed : 'M[R]_(M, D)) (fixed' : 'M[R]_(M', D))
    (moving moving' : 'M[R]_(N, D)) (pr : Probabilities R M N D)
    (pr' : Probabilities R M' N D) (s2 : R) (j : 'I_D) :
  system_matrix self (p1 pr) s2 \in unitmx ->
  p1 pr' = p1 pr -> col j (px pr') = col j (px pr) ->
  col j moving' = col j moving ->
  col j (points (compute_one P' self fixed' moving' pr' s2))
  = col j (points (compute_one P self fixed moving pr s2)).
Proof.
move=> Au p1E pxE mE.
have AW : system_matrix self (p1 pr) s2 *m solved_w P self moving pr s2
          = system_rhs moving pr.
  exact: solveP.
have AW' : system_matrix self (p1 pr) s2 *m solved_w P' self moving' pr' s2
           = px pr' - asDiagonal (p1 pr) *m moving'.
  by rewrite solved_wE /system_rhs p1E; apply: solveP.
have colW : col j (solved_w P' self moving' pr' s2)
            = col j (solved_w P self moving pr s2).
  rewrite -[LHS](mulKmx Au) -[RHS](mulKmx Au) -!col_mulmx AW AW'.
  by rewrite /system_rhs !linearB /= !col_mulmx pxE mE.
by rewrite !compute_oneE /= !linearD /= !col_mulmx colW mE.
Qed.

End SolveFurther.

(** ** The residual and the energy as sums of squares *)
Section SumsOfSquares.

Variable R : realFieldType.
Variable colPivHouseholderQr_solve :
  forall n d : nat, 'M[R]_n -> 'M[R]_(n, d) -> 'M[R]_(n, d).
Variable householderQr_solve :
  forall n d : nat, 'M[R]_n -> 'M[R]_(n, d) -> 'M[R]_(n, d).

Local Notation compute_one :=
  (compute_one colPivHouseholderQr_solve householderQr_solve).

(** When the statistics are the marginals and the weighted positions of a
    matrix [Pm] of correspondences, the residual is the sum of the squared
    distances between fixed and new points, weighted by [Pm]. *)
Lemma residual_weighted_distances M N D (fixed : 'M[R]_(M, D))
    (pts : 'M[R]_(N, D)) (pr : Probabilities R M N D) (Pm : 'M[R]_(N, M)) :
  (forall i, p1 pr i 0 = \sum_j Pm i j) ->
  (forall j, pt1 pr j 0 = \sum_i Pm i j) ->
  px pr = Pm *m fixed ->
  residual fixed pts pr
  = \sum_i \sum_j Pm i j * \sum_d (fixed j d - pts i d) ^+ 2.
Proof.
move=> p1E pt1E pxE; rewrite residualE pxE mxtrace_tr_mul.
have -> : \sum_i \sum_j Pm i j * \sum_d (fixed j d - pts i d) ^+ 2
  = \sum_i \sum_j \sum_d Pm i j * fixed j d ^+ 2
    + \sum_i \sum_j \sum_d Pm i j * pts i d ^+ 2
    - 2 * \sum_i \sum_j \sum_d Pm i j * fixed j d * pts i d.
  rewrite mulr_sumr -big_split /= -sumrB; apply: eq_bigr => i _.
  rewrite mulr_sumr -big_split /= -sumrB; apply: eq_bigr => j _.
  rewrite !mulr_sumr -big_split /= -sumrB; apply: eq_bigr => d _.
  by ring.
congr (_ + _ - _ * _).
- rewrite [RHS]exchange_big /=; apply: eq_bigr => j _.
  rewrite [RHS]exchange_big /=; apply: eq_bigr => d _.
  by rewrite pt1E mulr_sumr; apply: eq_bigr => i _; rewrite mulrC.
- apply: eq_bigr => i _; rewrite [RHS]exchange_big /=.
  apply: eq_bigr => d _.
  by rewrite p1E mulr_sumr; apply: eq_bigr => j _; rewrite mulrC.
apply: eq_bigr => i _; rewrite [RHS]exchange_big /=; apply: eq_bigr => d _.
by rewrite mxE mulr_suml.
Qed.

(** X11: for statistics that are the row sums, the column sums and the
    weighted fixed positions of a matrix [Pm >= 0], the variance returned is
    the [Pm]-weighted sum of the squared distances between the fixed points
    and the returned points, divided by [np * D]: the absolute value changes
    nothing. *)
Theorem sigma2_weighted_mean_distance (P : NonrigidPolicy) M N D
    (self : Nonrigid R N D) (fixed : 'M[R]_(M, D)) (moving : 'M[R]_(N, D))
    (pr : Probabilities R M N D) (s2 : R) (Pm : 'M[R]_(N, M)) :
  (forall i j, 0 <= Pm i j) ->
  (forall i, p1 pr i 0 = \sum_j Pm i j) ->
  (forall j, pt1 pr j 0 = \sum_i Pm i j) ->
  px pr = Pm *m fixed ->
  sigma2 (compute_one P self fixed moving pr s2)
  = quotient
      (\sum_i \sum_j Pm i j
         * \sum_d (fixed j d
                   - points (compute_one P self fixed moving pr s2) i d) ^+ 2)
      (vector_sum (p1 pr) * D%:R).
Proof.
move=> P_ge0 p1E pt1E pxE.
rewrite -(residual_weighted_distances _ p1E pt1E pxE) compute_oneE /=.
set pts := moving + _.
have r_ge0 : 0 <= residual fixed pts pr.
  rewrite (residual_weighted_distances _ p1E pt1E pxE).
  apply: sumr_ge0 => i _; apply: sumr_ge0 => j _; apply: mulr_ge0 => //.
  by apply: sumr_ge0 => d _; apply: sqr_ge0.
have den_ge0 : 0 <= vector_sum (p1 pr) * D%:R.
  apply: mulr_ge0; last exact: ler0n.
  by apply: sumr_ge0 => i _; rewrite p1E; apply: sumr_ge0.
by rewrite norm_quotient !ger0_norm.
Qed.

Lemma mxtrace_quadratic_forms n d (G : 'M[R]_n) (W : 'M[R]_(n, d)) :
  \tr (W^T *m G *m W) = \sum_j quadratic_form G (col j W).
Proof.
rewrite -mulmxA mxtrace_tr_mul exchange_big /=; apply: eq_bigr => j _.
rewrite quadratic_formE; apply: eq_bigr => i _.
by rewrite -col_mulmx !mxE.
Qed.

(** X12: for a positive semi-definite kernel and [lambda >= 0],
    [modify_probabilities] never lowers [l]: what it adds is [lambda / 2]
    times the sum over the columns of [W] of the quadratic form of [G]. *)
Theorem modify_probabilities_nondecreasing N D M' N' D'
    (self : Nonrigid R N D) (pr : Probabilities R M' N' D') :
  positive_semidefinite (m_g self) -> 0 <= m_lambda self ->
  l (modify_probabilities self pr)
  = l pr + m_lambda self / 2
           * \sum_j quadratic_form (m_g self) (col j (m_w self))
  /\ l pr <= l (modify_probabilities self pr).
Proof.
move=> G_psd lam_ge0; rewrite /= mxtrace_quadratic_forms; split=> //.
rewrite lerDl mulr_ge0 ?divr_ge0 ?ler0n //.
by apply: sumr_ge0 => j _; apply: G_psd.
Qed.

End SumsOfSquares.

Lemma compute_one_shift_witness :
  [/\ p1 shifted_statistics = p1 unit_statistics
    & px shifted_statistics
      = px unit_statistics + asDiagonal (p1 unit_statistics) *m const_mx 1]
  /\ points (compute_one (@exact_solve rat) (@exact_solve rat) PRECISION
               one_point_transform (const_mx 1) (0 + const_mx 1)
               shifted_statistics 1)
     = points (compute_one (@exact_solve rat) (@exact_solve rat) PRECISION
                 one_point_transform (const_mx 1) 0 unit_statistics 1)
       + const_mx 1.
Proof.
split; first by split.
have [] := @compute_one_shift rat (@exact_solve rat) (@exact_solve rat)
             PRECISION _ _ _ _ one_point_transform (const_mx 1) (const_mx 1)
             0 (const_mx 1) unit_statistics shifted_statistics 1 erefl erefl.
by [].
Defined.

Lemma compute_one_stationary_witness :
  system_matrix one_point_transform (p1 unit_statistics) 1 \in unitmx
  /\ asDiagonal (p1 unit_statistics)
       *m points (compute_one (@exact_solve rat) (@exact_solve rat) PRECISION
                    one_point_transform (const_mx 1) 0 unit_statistics 1)
     + (m_lambda one_point_transform * 1)
         *: solved_w (@exact_solve rat) (@exact_solve rat) PRECISION
              one_point_transform 0 unit_statistics 1
     = px unit_statistics.
Proof.
split; first exact: one_point_system_unit.
have [] := compute_one_stationary (@exact_solveP rat) (@exact_solveP rat)
             PRECISION (const_mx 1 : 'M_(1, 1)) 0 one_point_system_unit.
by [].
Defined.

Lemma compute_one_scale_witness :
  [/\ system_matrix one_point_transform (p1 unit_statistics) 1 \in unitmx,
      p1 doubled_statistics = p1 unit_statistics,
      pt1 doubled_statistics = pt1 unit_statistics
    & px doubled_statistics = 2 *: px unit_statistics]
  /\ points (compute_one (@exact_solve rat) (@exact_solve rat) PRECISION
               one_point_transform (2 *: const_mx 1) (2 *: const_mx 1)
               doubled_statistics 1)
     = 2 *: points (compute_one (@exact_solve rat) (@exact_solve rat)
                      PRECISION one_point_transform (const_mx 1) (const_mx 1)
                      unit_statistics 1).
Proof.
split; first by split=> //; exact: one_point_system_unit.
have [] := @compute_one_scale rat _ _ (@exact_solveP rat) (@exact_solveP rat)
             PRECISION _ _ _ one_point_transform (const_mx 1) (const_mx 1)
             unit_statistics doubled_statistics 1 2 one_point_system_unit
             erefl erefl erefl.
by [].
Defined.

Lemma compute_one_fixed_point_witness :
  [/\ system_matrix one_point_transform (p1 settled_statistics) 1 \in unitmx
    & px settled_statistics
      = asDiagonal (p1 settled_statistics) *m const_mx 1]
  /\ points (compute_one (@exact_solve rat) (@exact_solve rat) PERFORMANCE
               one_point_transform 0 (const_mx 1) settled_statistics 1)
     = const_mx 1.
Proof.
split; first by split=> //; exact: one_point_system_unit.
have [atrest _] :=
  @compute_one_fixed_point rat _ _ (@exact_solveP rat) (@exact_solveP rat)
    PERFORMANCE _ _ _ one_point_transform 0 (const_mx 1) settled_statistics 1
    one_point_system_unit.
by have [] := atrest erefl.
Defined.

Lemma compute_one_well_posed_witness :
  [/\ positive_semidefinite (m_g two_point_transform),
      nonnegative (p1 uneven_statistics)
    & 0 < m_lambda two_point_transform * 1]
  /\ system_matrix two_point_transform (p1 uneven_statistics) 1
       *m solved_w (@exact_solve rat) (@exact_solve rat) PERFORMANCE
            two_point_transform 0 uneven_statistics 1
     = system_rhs 0 uneven_statistics.
Proof.
have G_psd : positive_semidefinite (m_g two_point_transform).
  exact: psd_const1.
have p_ge0 : nonnegative (p1 uneven_statistics).
  by move=> i; rewrite mxE; case: ifP.
have mu_gt0 : 0 < m_lambda two_point_transform * 1 :> rat by [].
split; first by split.
have [solves _ _] :=
  @compute_one_well_posed rat _ _ (@exact_solveP rat) (@exact_solveP rat)
    _ _ _ two_point_transform (0 : 'M_(1, 1)) 0 uneven_statistics 1
    G_psd p_ge0 mu_gt0.
exact: solves.
Defined.

Lemma compute_one_columnwise_witness :
  [/\ system_matrix one_point_transform_dim2 (p1 (plane_statistics 1)) 1
        \in unitmx,
      p1 (plane_statistics 7) = p1 (plane_statistics 1),
      col ord0 (px (plane_statistics 7)) = col ord0 (px (plane_statistics 1))
    & col ord0 (on_second_axis 5) = col ord0 (on_second_axis 0)]
  /\ col ord0
       (points (compute_one (@exact_solve rat) (@exact_solve rat) PERFORMANCE
                  one_point_transform_dim2 (on_second_axis 7)
                  (on_second_axis 5) (plane_statistics 7) 1))
     = col ord0
         (points (compute_one (@exact_solve rat) (@exact_solve rat) PRECISION
                    one_point_transform_dim2 (on_second_axis 1)
                    (on_second_axis 0) (plane_statistics 1) 1)).
Proof.
have Au : system_matrix one_point_transform_dim2 (p1 (plane_statistics 1)) 1
            \in unitmx.
  apply: system_matrix_unit; first exact: psd_scalar1.
    exact: nonnegative_const.
  by [].
have col0E y z : col ord0 (on_second_axis y) = col ord0 (on_second_axis z).
  by apply/matrixP => i k; rewrite !mxE.
split; first by split=> //; exact: col0E.
exact: (@compute_one_columnwise rat _ _ (@exact_solveP rat)
          (@exact_solveP rat) PRECISION PERFORMANCE _ _ _ _
          one_point_transform_dim2
          (on_second_axis 1) (on_second_axis 7) (on_second_axis 0)
          (on_second_axis 5) (plane_statistics 1) (plane_statistics 7) 1 ord0
          Au erefl (col0E 7 1) (col0E 5 0)).
Defined.

Lemma sigma2_weighted_mean_distance_witness :
  [/\ forall i j, 0 <= (const_mx 1 : 'M[rat]_1) i j,
      forall i, p1 paired_statistics i 0
                = \sum_j (const_mx 1 : 'M[rat]_1) i j,
      forall j, pt1 paired_statistics j 0
                = \sum_i (const_mx 1 : 'M[rat]_1) i j
    & px paired_statistics = (const_mx 1 : 'M[rat]_1) *m const_mx 1]
  /\ sigma2 (compute_one (@exact_solve rat) (@exact_solve rat) PRECISION
               one_point_transform (const_mx 1) 0 paired_statistics 1)
     = quotient
         (\sum_i \sum_j (const_mx 1 : 'M[rat]_1) i j
            * \sum_d ((const_mx 1 : 'M[rat]_1) j d
                      - points (compute_one (@exact_solve rat)
                                  (@exact_solve rat) PRECISION
                                  one_point_transform (const_mx 1) 0
                                  paired_statistics 1) i d) ^+ 2)
         (vector_sum (p1 paired_statistics) * 1%:R).
Proof.
have P_ge0 : forall i j, 0 <= (const_mx 1 : 'M[rat]_1) i j.
  by move=> i j; rewrite mxE.
have p1E : forall i, p1 paired_statistics i 0
                     = \sum_j (const_mx 1 : 'M[rat]_1) i j.
  by move=> i; rewrite big_ord1 !mxE.
have pt1E : forall j, pt1 paired_statistics j 0
                      = \sum_i (const_mx 1 : 'M[rat]_1) i j.
  by move=> j; rewrite big_ord1 !mxE.
split; first by split.
exact: (@sigma2_weighted_mean_distance rat (@exact_solve rat)
          (@exact_solve rat) PRECISION _ _ _ one_point_transform (const_mx 1)
          0 paired_statistics 1 (const_mx 1) P_ge0 p1E pt1E erefl).
Defined.

Lemma modify_probabilities_nondecreasing_witness :
  [/\ positive_semidefinite (m_g two_point_transform)
    & 0 <= m_lambda two_point_transform]
  /\ l unit_statistics
     <= l (modify_probabilities two_point_transform unit_statistics).
Proof.
have G_psd : positive_semidefinite (m_g two_point_transform).
  exact: psd_const1.
have lam_ge0 : 0 <= m_lambda two_point_transform :> rat by [].
split; first by split.
have [] := modify_probabilities_nondecreasing unit_statistics G_psd lam_ge0.
by [].
Defined.
